(** * BitManipulation.h: a shallow embedding and its verification

    The header [BitManipulation/include/BitManipulation.h] declares eight
    inline functions in [namespace BitManipulation].  Each one is embedded
    below as a Rocq function over [Z], with the fixed-width behaviour of
    [int] and [unsigned int] written out.

    Integer model (32-bit [int], two's complement, as C++20 fixes it and as
    every mainstream compiler implemented it before):
    - an [int] is a [Z] in [-2^31, 2^31), an [unsigned int] a [Z] in
      [0, 2^32);
    - arithmetic results are brought back into range by [wrap_int] and
      [wrap_uint] (reduction modulo 2^32);
    - [&], [|], [^] on two's-complement values are [Z.land], [Z.lor],
      [Z.lxor]: [Z]'s bitwise operations work on the infinite
      two's-complement expansion, which agrees with the 32-bit pattern on
      bits 0..31 and is constant above;
    - [>>] on [int] is the arithmetic shift [Z.shiftr] (floor division),
      [<<] on [int] is [Z.shiftl] followed by [wrap_int];
    - conversion of an integer to [bool] is "non zero". *)

From Stdlib Require Import ZArith Bool Lia.
From stdpp Require Import base option gmap.

Local Open Scope Z_scope.

(** ** Fixed-width integers *)

Module CInt.

Definition int_min : Z := - 2 ^ 31.
Definition int_max : Z := 2 ^ 31 - 1.
Definition uint_max : Z := 2 ^ 32 - 1.

Definition in_int (x : Z) : Prop := int_min <= x <= int_max.
Definition in_uint (x : Z) : Prop := 0 <= x <= uint_max.

(** Reduction into [unsigned int]: the value modulo 2^32. *)
Definition wrap_uint (z : Z) : Z := z mod 2 ^ 32.

(** Reduction into [int]: the representative of [z] modulo 2^32 that lies
    in [-2^31, 2^31). *)
Definition wrap_int (z : Z) : Z := (z + 2 ^ 31) mod 2 ^ 32 - 2 ^ 31.

(** Contextual conversion of an integer to [bool]. *)
Definition bool_of_int (z : Z) : bool := negb (z =? 0).

(** Integral promotion of a [bool]. *)
Definition int_of_bool (b : bool) : Z := if b then 1 else 0.

(** The operator [!] applied to an [int]. *)
Definition logical_not (z : Z) : bool := negb (bool_of_int z).

End CInt.

Import CInt.

(** ** Memory, for the one function that takes pointers *)

Module Mem.

Definition addr : Type := positive.

(** [*p] as an rvalue; reading an address that holds no object has no
    defined result. *)
Definition load (p : addr) (m : gmap addr Z) : option Z := m !! p.

(** [*p = v]; writing through an address that holds no object has no
    defined result. *)
Definition store (p : addr) (v : Z) (m : gmap addr Z) : option (gmap addr Z) :=
  match m !! p with
  | Some _ => Some (<[p := v]> m)
  | None => None
  end.

(** [*p ^= *q]. *)
Definition xor_assign (p q : addr) (m : gmap addr Z) : option (gmap addr Z) :=
  vq ← load q m;
  vp ← load p m;
  store p (Z.lxor vp vq) m.

(** A memory with two [int] objects, at addresses 1 and 2. *)
Definition swap_example : gmap addr Z :=
  <[1%positive := 5]> (<[2%positive := -7]> ∅).

End Mem.

(** ** The functions of [namespace BitManipulation] *)

Module BitManipulation.

Import Mem.

(** [return x && (!x & (x - 1));]
    The unary [!] binds tighter than [&]: the right operand of [&&] is
    [(!x) & (x - 1)], with [!x] promoted to [int]. *)
Definition IsPowerOfTwo (x : Z) : bool :=
  bool_of_int x
  && bool_of_int (Z.land (int_of_bool (logical_not x)) (wrap_int (x - 1))).

(** [*a ^= *b; *b ^= *a; *a ^= *b;] *)
Definition SwapNumbers (a b : addr) (m : gmap addr Z) : option (gmap addr Z) :=
  m1 ← xor_assign a b m;
  m2 ← xor_assign b a m1;
  xor_assign a b m2.

(** [const unsigned int num = n ^ (n >> 1); return (((num + 1) & num) == 0);] *)
Definition BitsAreInAltOrder (n : Z) : bool :=
  let num := Z.lxor n (Z.shiftr n 1) in
  Z.land (wrap_uint (num + 1)) num =? 0.

(** [return ((a ^ b) == 0);] *)
Definition CompareIntegers (a b : Z) : bool :=
  Z.lxor a b =? 0.

(** [x ^= x << k] on an [int] [x]: the shifted value is reduced to [int]. *)
Definition xor_shl (k x : Z) : Z := Z.lxor x (wrap_int (Z.shiftl x k)).

(** [x ^= x >> k] on an [int] [x]: the shift of a signed value is
    arithmetic, it fills with copies of the sign bit. *)
Definition xor_shr (k x : Z) : Z := Z.lxor x (Z.shiftr x k).

(** [int x = nSeed; x ^= x << 13; x ^= x >> 17; x ^= x << 5; return x;]
    The local [x] is an [int]: the seed is converted to [int] first, and
    the three shifts are shifts of a signed value. *)
Definition GeneratePseudoRandomNumber (nSeed : Z) : Z :=
  let x := wrap_int nSeed in
  let x := xor_shl 13 x in
  let x := xor_shr 17 x in
  let x := xor_shl 5 x in
  x.

(** [return (x & 1) == 0;] *)
Definition IsNumberEven (x : Z) : bool :=
  Z.land x 1 =? 0.

(** [return (x | 0);] with the [int] result converted to [bool]. *)
Definition IsAtLeastOneBitSet (x : Z) : bool :=
  bool_of_int (Z.lor x 0).

(** The two locals of [GetBitCount]. *)
Record count_state : Type := CountState { nCount : Z; nCopy : Z }.

(** [nCount++; nCopy &= (nCopy - 1);] *)
Definition count_body (st : count_state) : count_state :=
  {| nCount := wrap_int (nCount st + 1);
     nCopy := Z.land (nCopy st) (wrap_uint (nCopy st - 1)) |}.

(** [while (nCopy != 0) { ... }], run for at most [fuel] tests of the
    condition; [None] when the fuel is used up before the loop exits. *)
Fixpoint count_loop (fuel : nat) (st : count_state) : option count_state :=
  match fuel with
  | O => None
  | S fuel' =>
      if bool_of_int (nCopy st) then count_loop fuel' (count_body st)
      else Some st
  end.

(** [int nCount = 0; unsigned int nCopy = x; while ...; return nCount;] *)
Definition GetBitCount (fuel : nat) (x : Z) : option Z :=
  st ← count_loop fuel {| nCount := 0; nCopy := x |};
  Some (nCount st).

End BitManipulation.

Import Mem BitManipulation.

(** ** Reference notions the functions are compared with *)

Module Spec.

(** A power of two: [2 ^ n] for a natural exponent [n]. *)
Definition power_of_two (x : Z) : Prop := exists n : Z, 0 <= n /\ x = 2 ^ n.

(** The 32-bit pattern of an [int] or [unsigned int] value. *)
Definition bit_pattern (x : Z) : Z := wrap_uint x.

(** [x ^= x << k] on a 32-bit unsigned [x], taken modulo 2^32. *)
Definition uxor_shl (k x : Z) : Z := Z.lxor x (wrap_uint (Z.shiftl x k)).

(** [x ^= x >> k] on a 32-bit unsigned [x]: the shift fills with zeros. *)
Definition uxor_shr (k x : Z) : Z := Z.lxor x (Z.shiftr x k).

(** The xorshift computation on the 32-bit unsigned value:
    [x = seed; x ^= x << 13; x ^= x >> 17; x ^= x << 5; return x]. *)
Definition xorshift32_unsigned (seed : Z) : Z :=
  let x := wrap_uint seed in
  let x := uxor_shl 13 x in
  let x := uxor_shr 17 x in
  let x := uxor_shl 5 x in
  x.

(** The bits of [n] strictly alternate: below the leading one of [n],
    every two adjacent bits differ.  ([Z.log2 n] is the position of the
    leading one of a positive [n], and 0 for [n = 0].) *)
Definition alternating (n : Z) : Prop :=
  forall i : Z, 0 <= i < Z.log2 n -> Z.testbit n i <> Z.testbit n (i + 1).

(** The number of ones among bits [0 .. w-1] of [x]. *)
Fixpoint ones_below (w : nat) (x : Z) : Z :=
  match w with
  | O => 0
  | S w' => ones_below w' x + Z.b2z (Z.testbit x (Z.of_nat w'))
  end.

(** Population count of a 32-bit value. *)
Definition popcount (x : Z) : Z := ones_below 32 x.

End Spec.

Import Spec.

(** ** Facts about the integer model *)

Section IntegerModel.

Lemma wrap_uint_in_uint (z : Z) : in_uint (wrap_uint z).
Proof.
  unfold in_uint, uint_max, wrap_uint.
  pose proof (Z.mod_pos_bound z (2 ^ 32)). lia.
Qed.

Lemma wrap_int_in_int (z : Z) : in_int (wrap_int z).
Proof.
  unfold in_int, int_min, int_max, wrap_int.
  pose proof (Z.mod_pos_bound (z + 2 ^ 31) (2 ^ 32)). lia.
Qed.

Lemma wrap_uint_id (x : Z) : in_uint x -> wrap_uint x = x.
Proof.
  unfold in_uint, uint_max, wrap_uint. intros Hx.
  apply Z.mod_small. lia.
Qed.

Lemma wrap_int_id (x : Z) : in_int x -> wrap_int x = x.
Proof.
  unfold in_int, int_min, int_max, wrap_int. intros Hx.
  rewrite Z.mod_small by lia. lia.
Qed.

(** [wrap_int] keeps the 32-bit pattern. *)
Lemma wrap_uint_wrap_int (z : Z) : wrap_uint (wrap_int z) = wrap_uint z.
Proof.
  unfold wrap_uint, wrap_int.
  rewrite (Z.mod_eq (z + 2 ^ 31) (2 ^ 32)) by lia.
  replace (z + 2 ^ 31 - 2 ^ 32 * ((z + 2 ^ 31) / 2 ^ 32) - 2 ^ 31)
    with (z + (- ((z + 2 ^ 31) / 2 ^ 32)) * 2 ^ 32) by lia.
  apply Z.mod_add. lia.
Qed.

Lemma testbit_wrap_uint (z i : Z) :
  Z.testbit (wrap_uint z) i = (i <? 32) && Z.testbit z i.
Proof. unfold wrap_uint. apply Z.testbit_mod_pow2. lia. Qed.

(** Above bit 31 the two's-complement expansion of an [int] repeats the
    sign bit. *)
Lemma testbit_int_sign (x j : Z) :
  in_int x -> 31 <= j -> Z.testbit x j = (x <? 0).
Proof.
  unfold in_int, int_min, int_max. intros Hx Hj.
  assert (Hpow : 2 ^ 31 <= 2 ^ j) by (apply Z.pow_le_mono_r; lia).
  destruct (Z.ltb_spec x 0) as [Hneg | Hpos].
  - apply Z.testbit_true; [lia |].
    replace (x / 2 ^ j) with (-1); [reflexivity |].
    apply Z.div_unique with (r := x + 2 ^ j); lia.
  - apply Z.testbit_false; [lia |].
    rewrite Z.div_small by lia. reflexivity.
Qed.

Lemma testbit_int_high (x j : Z) :
  in_int x -> 31 <= j -> Z.testbit x j = Z.testbit x 31.
Proof.
  intros Hx Hj.
  rewrite (testbit_int_sign x j Hx Hj).
  rewrite (testbit_int_sign x 31 Hx); [reflexivity | lia].
Qed.

Lemma testbit_wrap_int_low (z i : Z) :
  i < 32 -> Z.testbit (wrap_int z) i = Z.testbit z i.
Proof.
  intros Hi.
  pose proof (testbit_wrap_uint (wrap_int z) i) as H1.
  pose proof (testbit_wrap_uint z i) as H2.
  rewrite wrap_uint_wrap_int in H1.
  assert (Hlt : (i <? 32) = true) by (apply Z.ltb_lt; lia).
  rewrite Hlt in H1, H2. simpl in H1, H2. congruence.
Qed.

(** [wrap_int] is sign extension from bit 31. *)
Lemma testbit_wrap_int (z i : Z) :
  Z.testbit (wrap_int z) i = Z.testbit z (Z.min i 31).
Proof.
  destruct (Z_lt_le_dec i 31) as [Hlo | Hhi].
  - rewrite Z.min_l by lia. apply testbit_wrap_int_low. lia.
  - rewrite Z.min_r by lia.
    rewrite (testbit_int_high _ i (wrap_int_in_int z) Hhi).
    apply testbit_wrap_int_low. lia.
Qed.

Lemma bit_pattern_in_uint (x : Z) : in_uint (bit_pattern x).
Proof. apply wrap_uint_in_uint. Qed.

(** Two [int]s with the same 32-bit pattern are the same [int]. *)
Lemma bit_pattern_inj (x y : Z) :
  in_int x -> in_int y -> bit_pattern x = bit_pattern y -> x = y.
Proof.
  intros Hx Hy Heq.
  rewrite <- (wrap_int_id x Hx), <- (wrap_int_id y Hy).
  unfold bit_pattern, wrap_uint in Heq. unfold wrap_int.
  f_equal.
  rewrite <- (Zplus_mod_idemp_l x), <- (Zplus_mod_idemp_l y).
  rewrite Heq. reflexivity.
Qed.

Lemma bool_of_int_true (z : Z) : bool_of_int z = true <-> z <> 0.
Proof.
  unfold bool_of_int. rewrite negb_true_iff. apply Z.eqb_neq.
Qed.

End IntegerModel.

(** ** IsPowerOfTwo *)

Section PowerOfTwo.

(** Whatever [x] is, one of the two operands of [&&] is false: [x] itself
    when [x = 0], and [(!x) & (x - 1)] otherwise, because [!x] is then 0. *)
Lemma IsPowerOfTwo_constant (x : Z) : IsPowerOfTwo x = false.
Proof.
  unfold IsPowerOfTwo, logical_not, bool_of_int.
  destruct (x =? 0) eqn:Hx; simpl; reflexivity.
Qed.

(** C1 (the code departs from the claim): on the powers of two 1, 2, 4 and
    2^30 the function [IsPowerOfTwo] returns false, where the claim asks
    for true. *)
Theorem IsPowerOfTwo_rejects_powers :
  (power_of_two 1 /\ IsPowerOfTwo 1 = false) /\
  (power_of_two 2 /\ IsPowerOfTwo 2 = false) /\
  (power_of_two 4 /\ IsPowerOfTwo 4 = false) /\
  (power_of_two (2 ^ 30) /\ in_int (2 ^ 30) /\ IsPowerOfTwo (2 ^ 30) = false).
Proof.
  repeat split; try reflexivity.
  - exists 0. split; [lia | reflexivity].
  - exists 1. split; [lia | reflexivity].
  - exists 2. split; [lia | reflexivity].
  - exists 30. split; [lia | reflexivity].
  - unfold int_min. lia.
  - unfold int_max. lia.
Qed.

End PowerOfTwo.

(** ** CompareIntegers *)

Section Compare.

(** C10: for all [int]s [a] and [b], [CompareIntegers a b] is the result
    of the direct comparison [a == b]. *)
Theorem CompareIntegers_is_equality (a b : Z) :
  in_int a -> in_int b -> CompareIntegers a b = (a =? b).
Proof.
  intros _ _. unfold CompareIntegers.
  destruct (Z.eqb_spec a b) as [-> | Hne].
  - rewrite Z.lxor_nilpotent. reflexivity.
  - apply Z.eqb_neq. intros H0. apply Hne, Z.lxor_eq, H0.
Qed.

Lemma CompareIntegers_is_equality_witness :
  in_int (-7) /\ in_int 12 /\ CompareIntegers (-7) 12 = (-7 =? 12).
Proof.
  assert (Ha : in_int (-7)) by (unfold in_int, int_min, int_max; lia).
  assert (Hb : in_int 12) by (unfold in_int, int_min, int_max; lia).
  split; [exact Ha | split; [exact Hb |]].
  apply (CompareIntegers_is_equality (-7) 12 Ha Hb).
Defined.

End Compare.

(** ** IsNumberEven *)

Section Even.

Lemma land_1_bit0 (x : Z) : Z.land x 1 = Z.b2z (Z.testbit x 0).
Proof.
  rewrite Z.bit0_mod.
  change 2 with (2 ^ 1). rewrite <- Z.land_ones by lia. reflexivity.
Qed.

(** C9: for every [int] [x], [IsNumberEven x] holds exactly when bit 0 of
    the 32-bit pattern of [x] is 0, and exactly when [x] is even, negative
    values included. *)
Theorem IsNumberEven_lsb_and_parity (x : Z) :
  in_int x ->
  (IsNumberEven x = true <-> Z.testbit (bit_pattern x) 0 = false) /\
  (IsNumberEven x = true <-> Z.Even x).
Proof.
  intros _.
  assert (Hcode : IsNumberEven x = negb (Z.testbit x 0)).
  { unfold IsNumberEven. rewrite land_1_bit0.
    destruct (Z.testbit x 0); reflexivity. }
  split.
  - unfold bit_pattern. rewrite testbit_wrap_uint. simpl.
    rewrite Hcode. apply negb_true_iff.
  - rewrite Hcode, Z.bit0_odd, Z.negb_odd. apply Z.even_spec.
Qed.

Lemma IsNumberEven_lsb_and_parity_witness :
  in_int (-2) /\
  (IsNumberEven (-2) = true <-> Z.testbit (bit_pattern (-2)) 0 = false) /\
  (IsNumberEven (-2) = true <-> Z.Even (-2)).
Proof.
  assert (Hx : in_int (-2)) by (unfold in_int, int_min, int_max; lia).
  split; [exact Hx |].
  apply (IsNumberEven_lsb_and_parity (-2) Hx).
Defined.

Example IsNumberEven_4 : IsNumberEven 4 = true.
Proof. reflexivity. Qed.

Example IsNumberEven_7 : IsNumberEven 7 = false.
Proof. reflexivity. Qed.

Example IsNumberEven_minus_2 : IsNumberEven (-2) = true.
Proof. reflexivity. Qed.

End Even.

(** ** IsAtLeastOneBitSet *)

Section AnyBit.

(** A non-zero 32-bit pattern has a one among its 32 bits. *)
Lemma uint_nonzero_has_bit (u : Z) :
  in_uint u -> u <> 0 -> exists i : Z, 0 <= i < 32 /\ Z.testbit u i = true.
Proof.
  unfold in_uint, uint_max. intros Hu Hnz.
  exists (Z.log2 u). split.
  - split; [apply Z.log2_nonneg |].
    apply Z.log2_lt_pow2; lia.
  - apply Z.bit_log2. lia.
Qed.

Lemma bit_pattern_zero (x : Z) : in_int x -> bit_pattern x = 0 -> x = 0.
Proof.
  intros Hx H0. apply bit_pattern_inj; [exact Hx | | exact H0].
  unfold in_int, int_min, int_max. lia.
Qed.

(** C3: for every [int] [x], [IsAtLeastOneBitSet x] holds exactly when
    [x <> 0], and exactly when one of the 32 bits of [x] is set. *)
Theorem IsAtLeastOneBitSet_iff_nonzero (x : Z) :
  in_int x ->
  (IsAtLeastOneBitSet x = true <-> x <> 0) /\
  (IsAtLeastOneBitSet x = true <->
   exists i : Z, 0 <= i < 32 /\ Z.testbit (bit_pattern x) i = true).
Proof.
  intros Hx.
  assert (Hcode : IsAtLeastOneBitSet x = true <-> x <> 0).
  { unfold IsAtLeastOneBitSet. rewrite Z.lor_0_r. apply bool_of_int_true. }
  split; [exact Hcode |].
  rewrite Hcode. split.
  - intros Hnz. apply uint_nonzero_has_bit; [apply bit_pattern_in_uint |].
    intros H0. apply Hnz, bit_pattern_zero; assumption.
  - intros (i & _ & Hbit) ->.
    change (bit_pattern 0) with 0 in Hbit.
    rewrite Z.bits_0 in Hbit. discriminate Hbit.
Qed.

Lemma IsAtLeastOneBitSet_iff_nonzero_witness :
  in_int 5 /\
  (IsAtLeastOneBitSet 5 = true <-> 5 <> 0) /\
  (IsAtLeastOneBitSet 5 = true <->
   exists i : Z, 0 <= i < 32 /\ Z.testbit (bit_pattern 5) i = true).
Proof.
  assert (Hx : in_int 5) by (unfold in_int, int_min, int_max; lia).
  split; [exact Hx |].
  apply (IsAtLeastOneBitSet_iff_nonzero 5 Hx).
Defined.

Example IsAtLeastOneBitSet_0 : IsAtLeastOneBitSet 0 = false.
Proof. reflexivity. Qed.

Example IsAtLeastOneBitSet_5 : IsAtLeastOneBitSet 5 = true.
Proof. reflexivity. Qed.

End AnyBit.

(** ** SwapNumbers *)

Section Swap.

Implicit Types (p q a b c : addr) (m : gmap addr Z).

Lemma xor_assign_some p q m (vp vq : Z) :
  m !! p = Some vp -> m !! q = Some vq ->
  xor_assign p q m = Some (<[p := Z.lxor vp vq]> m).
Proof.
  intros Hp Hq. unfold xor_assign, load, store.
  rewrite Hq. simpl. rewrite Hp. reflexivity.
Qed.

Lemma lxor_cancel_l (u v : Z) : Z.lxor v (Z.lxor u v) = u.
Proof.
  rewrite (Z.lxor_comm u v), <- Z.lxor_assoc, Z.lxor_nilpotent.
  apply Z.lxor_0_l.
Qed.

(** C4: when [a] and [b] are distinct locations holding [int]s [va] and
    [vb], [SwapNumbers a b] returns, and afterwards [a] holds [vb], [b]
    holds [va], and every other location is unchanged. *)
Theorem SwapNumbers_exchanges a b m (va vb : Z) :
  a <> b -> in_int va -> in_int vb ->
  m !! a = Some va -> m !! b = Some vb ->
  exists m' : gmap addr Z,
    SwapNumbers a b m = Some m' /\
    m' !! a = Some vb /\
    m' !! b = Some va /\
    (forall c, c <> a -> c <> b -> m' !! c = m !! c).
Proof.
  intros Hab _ _ Ha Hb.
  set (m1 := <[a := Z.lxor va vb]> m).
  set (m2 := <[b := Z.lxor vb (Z.lxor va vb)]> m1).
  set (m3 := <[a := Z.lxor (Z.lxor va vb) (Z.lxor vb (Z.lxor va vb))]> m2).
  assert (H1 : xor_assign a b m = Some m1)
    by (apply xor_assign_some; assumption).
  assert (H1a : m1 !! a = Some (Z.lxor va vb))
    by (subst m1; apply lookup_insert_eq).
  assert (H1b : m1 !! b = Some vb)
    by (subst m1; rewrite lookup_insert_ne by exact Hab; exact Hb).
  assert (H2 : xor_assign b a m1 = Some m2)
    by (apply xor_assign_some; assumption).
  assert (H2b : m2 !! b = Some (Z.lxor vb (Z.lxor va vb)))
    by (subst m2; apply lookup_insert_eq).
  assert (H2a : m2 !! a = Some (Z.lxor va vb))
    by (subst m2; rewrite lookup_insert_ne by congruence; exact H1a).
  assert (H3 : xor_assign a b m2 = Some m3)
    by (apply xor_assign_some; assumption).
  exists m3. split; [| split; [| split]].
  - unfold SwapNumbers. rewrite H1. simpl. rewrite H2. simpl. exact H3.
  - subst m3. rewrite lookup_insert_eq. f_equal.
    apply lxor_cancel_l.
  - subst m3. rewrite lookup_insert_ne by exact Hab.
    rewrite H2b. f_equal. apply lxor_cancel_l.
  - intros c Hca Hcb. subst m3 m2 m1.
    rewrite !lookup_insert_ne by congruence. reflexivity.
Qed.

Lemma SwapNumbers_exchanges_witness :
  (1%positive : addr) <> 2%positive /\ in_int 5 /\ in_int (-7) /\
  swap_example !! (1%positive : addr) = Some 5 /\
  swap_example !! (2%positive : addr) = Some (-7) /\
  exists m' : gmap addr Z,
    SwapNumbers 1%positive 2%positive swap_example = Some m' /\
    m' !! (1%positive : addr) = Some (-7) /\
    m' !! (2%positive : addr) = Some 5 /\
    (forall c : addr,
       c <> 1%positive -> c <> 2%positive -> m' !! c = swap_example !! c).
Proof.
  assert (Hab : (1%positive : addr) <> 2%positive) by discriminate.
  assert (Hva : in_int 5) by (unfold in_int, int_min, int_max; lia).
  assert (Hvb : in_int (-7)) by (unfold in_int, int_min, int_max; lia).
  assert (Ha : swap_example !! (1%positive : addr) = Some 5) by reflexivity.
  assert (Hb : swap_example !! (2%positive : addr) = Some (-7))
    by reflexivity.
  repeat (split; [assumption |]).
  apply (SwapNumbers_exchanges _ _ swap_example 5 (-7) Hab Hva Hvb Ha Hb).
Defined.

(** C5: when both arguments are the same location, holding an [int] [v],
    [SwapNumbers] returns and afterwards that location holds 0; every
    other location is unchanged. *)
Theorem SwapNumbers_aliased_zeroes a m (v : Z) :
  in_int v -> m !! a = Some v ->
  exists m' : gmap addr Z,
    SwapNumbers a a m = Some m' /\
    m' !! a = Some 0 /\
    (forall c, c <> a -> m' !! c = m !! c).
Proof.
  intros _ Ha.
  set (m1 := <[a := Z.lxor v v]> m).
  set (m2 := <[a := Z.lxor (Z.lxor v v) (Z.lxor v v)]> m1).
  set (m3 := <[a := 0]> m2).
  assert (H1 : xor_assign a a m = Some m1)
    by (apply xor_assign_some; assumption).
  assert (H1a : m1 !! a = Some (Z.lxor v v))
    by (subst m1; apply lookup_insert_eq).
  assert (H2 : xor_assign a a m1 = Some m2)
    by (apply xor_assign_some; assumption).
  assert (H2a : m2 !! a = Some 0).
  { subst m2. rewrite lookup_insert_eq. f_equal. apply Z.lxor_nilpotent. }
  assert (H3 : xor_assign a a m2 = Some m3).
  { rewrite (xor_assign_some a a m2 0 0 H2a H2a). reflexivity. }
  exists m3. split; [| split].
  - unfold SwapNumbers. rewrite H1. simpl. rewrite H2. simpl. exact H3.
  - subst m3. apply lookup_insert_eq.
  - intros c Hc. subst m3 m2 m1.
    rewrite !lookup_insert_ne by congruence. reflexivity.
Qed.

Lemma SwapNumbers_aliased_zeroes_witness :
  in_int 5 /\ swap_example !! (1%positive : addr) = Some 5 /\
  exists m' : gmap addr Z,
    SwapNumbers 1%positive 1%positive swap_example = Some m' /\
    m' !! (1%positive : addr) = Some 0 /\
    (forall c : addr, c <> 1%positive -> m' !! c = swap_example !! c).
Proof.
  assert (Hv : in_int 5) by (unfold in_int, int_min, int_max; lia).
  assert (Ha : swap_example !! (1%positive : addr) = Some 5) by reflexivity.
  repeat (split; [assumption |]).
  apply (SwapNumbers_aliased_zeroes _ swap_example 5 Hv Ha).
Defined.

End Swap.

(** ** Binary decomposition of bitwise conjunction and predecessor *)

Section Binary.

Lemma odd_land (a b : Z) : Z.odd (Z.land a b) = Z.odd a && Z.odd b.
Proof. rewrite <- !Z.bit0_odd. apply Z.land_spec. Qed.

Lemma div2_land (a b : Z) :
  Z.div2 (Z.land a b) = Z.land (Z.div2 a) (Z.div2 b).
Proof. rewrite !Z.div2_spec. apply Z.shiftr_land. Qed.

Lemma div2_bound (w : nat) (x : Z) :
  0 <= x < 2 ^ Z.of_nat (S w) -> 0 <= Z.div2 x < 2 ^ Z.of_nat w.
Proof.
  rewrite Nat2Z.inj_succ, Z.pow_succ_r by lia.
  pose proof (Z.div2_odd x) as Hx.
  destruct (Z.odd x); simpl Z.b2z in Hx; lia.
Qed.

(** Predecessor of an odd number: bit 0 is cleared. *)
Lemma pred_of_odd (x : Z) :
  Z.odd x = true -> Z.odd (x - 1) = false /\ Z.div2 (x - 1) = Z.div2 x.
Proof.
  intros Hodd.
  assert (Hp : Z.odd (x - 1) = false).
  { rewrite Z.odd_sub, Hodd. reflexivity. }
  split; [exact Hp |].
  pose proof (Z.div2_odd x) as Hx. pose proof (Z.div2_odd (x - 1)) as Hx1.
  rewrite Hodd in Hx. rewrite Hp in Hx1. simpl Z.b2z in Hx, Hx1. lia.
Qed.

(** Predecessor of an even number: the borrow goes into the upper bits. *)
Lemma pred_of_even (x : Z) :
  Z.odd x = false -> Z.odd (x - 1) = true /\ Z.div2 (x - 1) = Z.div2 x - 1.
Proof.
  intros Heven.
  assert (Hp : Z.odd (x - 1) = true).
  { rewrite Z.odd_sub, Heven. reflexivity. }
  split; [exact Hp |].
  pose proof (Z.div2_odd x) as Hx. pose proof (Z.div2_odd (x - 1)) as Hx1.
  rewrite Heven in Hx. rewrite Hp in Hx1. simpl Z.b2z in Hx, Hx1. lia.
Qed.

End Binary.

(** ** GetBitCount *)

Section BitCount.

(** *** The reference count, read from bit 0 upwards *)

Lemma ones_below_step (w : nat) (x : Z) :
  ones_below (S w) x = Z.b2z (Z.odd x) + ones_below w (Z.div2 x).
Proof.
  induction w as [| w IH].
  - cbn [ones_below]. change (Z.of_nat 0) with 0.
    rewrite Z.bit0_odd. lia.
  - change (ones_below (S (S w)) x)
      with (ones_below (S w) x + Z.b2z (Z.testbit x (Z.of_nat (S w)))).
    rewrite IH.
    change (ones_below (S w) (Z.div2 x))
      with (ones_below w (Z.div2 x)
            + Z.b2z (Z.testbit (Z.div2 x) (Z.of_nat w))).
    rewrite Z.div2_div, Z.div2_bits by lia.
    rewrite Nat2Z.inj_succ. lia.
Qed.

Lemma ones_below_range (w : nat) (x : Z) : 0 <= ones_below w x <= Z.of_nat w.
Proof.
  induction w as [| w IH].
  - simpl. lia.
  - change (ones_below (S w) x)
      with (ones_below w x + Z.b2z (Z.testbit x (Z.of_nat w))).
    rewrite Nat2Z.inj_succ.
    destruct (Z.testbit x (Z.of_nat w)); simpl Z.b2z; lia.
Qed.

Lemma popcount_range (x : Z) : 0 <= popcount x <= 32.
Proof. apply (ones_below_range 32 x). Qed.

Lemma ones_below_0 (w : nat) : ones_below w 0 = 0.
Proof.
  induction w as [| w IH]; [reflexivity |].
  cbn [ones_below]. rewrite IH, Z.bits_0. reflexivity.
Qed.

(** *** One iteration: [x & (x - 1)] clears the lowest one of [x] *)

Lemma clear_lowest_ones_below (w : nat) :
  forall x : Z,
    0 < x < 2 ^ Z.of_nat w ->
    ones_below w (Z.land x (x - 1)) + 1 = ones_below w x.
Proof.
  induction w as [| w IH]; intros x Hx.
  - simpl in Hx. lia.
  - rewrite !ones_below_step, odd_land, div2_land.
    assert (Hd : 0 <= Z.div2 x < 2 ^ Z.of_nat w) by (apply div2_bound; lia).
    destruct (Z.odd x) eqn:Hodd.
    + destruct (pred_of_odd x Hodd) as [Hp Hq].
      rewrite Hp, Hq, Z.land_diag. simpl Z.b2z. lia.
    + destruct (pred_of_even x Hodd) as [Hp Hq].
      rewrite Hq. simpl Z.b2z.
      assert (Hpos : 0 < Z.div2 x).
      { pose proof (Z.div2_odd x) as Hx2. rewrite Hodd in Hx2.
        simpl Z.b2z in Hx2. lia. }
      specialize (IH (Z.div2 x) (conj Hpos (proj2 Hd))). lia.
Qed.

Lemma land_le_r (w : nat) :
  forall a b : Z, 0 <= a -> 0 <= b < 2 ^ Z.of_nat w -> Z.land a b <= b.
Proof.
  induction w as [| w IH]; intros a b Ha Hb.
  - simpl in Hb. assert (b = 0) as -> by lia. rewrite Z.land_0_r. lia.
  - pose proof (Z.div2_odd (Z.land a b)) as Hl.
    pose proof (Z.div2_odd b) as Hb2.
    pose proof (Z.div2_odd a) as Ha2.
    rewrite odd_land, div2_land in Hl.
    assert (Hdb : 0 <= Z.div2 b < 2 ^ Z.of_nat w) by (apply div2_bound; lia).
    assert (Hda : 0 <= Z.div2 a).
    { destruct (Z.odd a); simpl Z.b2z in Ha2; lia. }
    specialize (IH (Z.div2 a) (Z.div2 b) Hda Hdb).
    destruct (Z.odd a), (Z.odd b); simpl Z.b2z in *; lia.
Qed.

(** The loop variant: on a non-zero [unsigned int], [nCopy & (nCopy - 1)]
    is again an [unsigned int] and is strictly smaller. *)
Lemma clear_lowest_decreases (x : Z) :
  in_uint x -> x <> 0 ->
  in_uint (Z.land x (x - 1)) /\ Z.land x (x - 1) < x.
Proof.
  unfold in_uint, uint_max. intros Hx Hnz.
  assert (Hlow : 0 <= Z.land x (x - 1)) by (apply Z.land_nonneg; lia).
  assert (Hup : Z.land x (x - 1) <= x - 1).
  { apply (land_le_r 32); [lia |]. change (Z.of_nat 32) with 32. lia. }
  lia.
Qed.

Lemma count_body_nCopy (st : count_state) :
  in_uint (nCopy st) -> nCopy st <> 0 ->
  nCopy (count_body st) = Z.land (nCopy st) (nCopy st - 1).
Proof.
  intros Hx Hnz. unfold count_body. simpl.
  rewrite wrap_uint_id; [reflexivity |].
  unfold in_uint, uint_max in *. lia.
Qed.

Lemma clear_lowest_popcount (x : Z) :
  in_uint x -> x <> 0 -> popcount (Z.land x (x - 1)) + 1 = popcount x.
Proof.
  unfold in_uint, uint_max, popcount. intros Hx Hnz.
  apply clear_lowest_ones_below. change (Z.of_nat 32) with 32. lia.
Qed.

(** *** The loop *)

(** Started in a state whose counter cannot overflow, and given more fuel
    than there are ones in [nCopy], the loop exits with [nCopy = 0] and
    the counter advanced by the number of ones. *)
Lemma count_loop_result (fuel : nat) :
  forall st : count_state,
    in_uint (nCopy st) ->
    0 <= nCount st -> nCount st + popcount (nCopy st) <= int_max ->
    popcount (nCopy st) < Z.of_nat fuel ->
    count_loop fuel st =
      Some {| nCount := nCount st + popcount (nCopy st); nCopy := 0 |}.
Proof.
  induction fuel as [| fuel IH]; intros [c x] Hx Hc Hmax Hfuel;
    simpl nCount in *; simpl nCopy in *.
  - pose proof (popcount_range x). lia.
  - simpl count_loop. unfold bool_of_int.
    destruct (Z.eqb_spec x 0) as [-> | Hnz]; simpl negb; cbv iota.
    + unfold popcount. rewrite ones_below_0. f_equal. f_equal. lia.
    + pose proof (clear_lowest_popcount x Hx Hnz) as Hpop.
      pose proof (clear_lowest_decreases x Hx Hnz) as [Hin _].
      pose proof (popcount_range (Z.land x (x - 1))) as Hr.
      assert (Hbody : nCopy (count_body {| nCount := c; nCopy := x |})
                      = Z.land x (x - 1))
        by (apply (count_body_nCopy {| nCount := c; nCopy := x |});
            assumption).
      assert (Hcnt : nCount (count_body {| nCount := c; nCopy := x |}) = c + 1).
      { unfold count_body. simpl. apply wrap_int_id.
        unfold in_int, int_min, int_max in *. lia. }
      rewrite IH; rewrite ?Hbody, ?Hcnt; try assumption; try lia.
      f_equal. f_equal. lia.
Qed.

Lemma GetBitCount_enough_fuel (fuel : nat) (x : Z) :
  in_uint x -> popcount x < Z.of_nat fuel ->
  GetBitCount fuel x = Some (popcount x).
Proof.
  intros Hx Hfuel. unfold GetBitCount.
  pose proof (popcount_range x) as Hr.
  rewrite count_loop_result; simpl; try assumption; try lia.
  - reflexivity.
  - unfold int_max. lia.
Qed.

(** C7: for every [unsigned int] [x], [GetBitCount] run with room for 33
    tests of the loop condition returns the population count of [x]. *)
Theorem GetBitCount_is_popcount (x : Z) (fuel : nat) :
  in_uint x -> (32 < fuel)%nat -> GetBitCount fuel x = Some (popcount x).
Proof.
  intros Hx Hfuel. apply GetBitCount_enough_fuel; [exact Hx |].
  pose proof (popcount_range x). lia.
Qed.

Lemma GetBitCount_is_popcount_witness :
  in_uint (2 ^ 31) /\ (32 < 33)%nat /\
  GetBitCount 33 (2 ^ 31) = Some (popcount (2 ^ 31)).
Proof.
  assert (Hx : in_uint (2 ^ 31)) by (unfold in_uint, uint_max; lia).
  assert (Hf : (32 < 33)%nat) by lia.
  split; [exact Hx | split; [exact Hf |]].
  apply (GetBitCount_is_popcount (2 ^ 31) 33 Hx Hf).
Defined.

Example GetBitCount_0 : GetBitCount 33 0 = Some 0.
Proof. reflexivity. Qed.

Example GetBitCount_7 : GetBitCount 33 7 = Some 3.
Proof. reflexivity. Qed.

Example GetBitCount_255 : GetBitCount 33 255 = Some 8.
Proof. reflexivity. Qed.

Example GetBitCount_top_bit : GetBitCount 33 (Z.shiftl 1 31) = Some 1.
Proof. reflexivity. Qed.

(** With all 32 bits set the loop tests its condition 33 times. *)
Example GetBitCount_all_ones :
  GetBitCount 32 uint_max = None /\ GetBitCount 33 uint_max = Some 32.
Proof. split; reflexivity. Qed.

(** C8: the loop of [GetBitCount] terminates on every [unsigned int] [x]:
    an iteration entered with [nCopy = x <> 0] leaves [nCopy] an
    [unsigned int] strictly below [x], and the function returns one and
    the same result for every amount of fuel above 32.  The seven other
    functions have no loop or recursion and are embedded as total
    functions. *)
Theorem GetBitCount_terminates (x : Z) :
  in_uint x ->
  (forall st : count_state,
     nCopy st = x -> x <> 0 ->
     in_uint (nCopy (count_body st)) /\ nCopy (count_body st) < nCopy st) /\
  (exists r : Z,
     forall fuel : nat, (32 < fuel)%nat -> GetBitCount fuel x = Some r).
Proof.
  intros Hx. split.
  - intros st Hst Hnz. subst x.
    rewrite count_body_nCopy by assumption.
    apply clear_lowest_decreases; assumption.
  - exists (popcount x). intros fuel Hfuel.
    apply GetBitCount_enough_fuel; [exact Hx |].
    pose proof (popcount_range x). lia.
Qed.

Lemma GetBitCount_terminates_witness :
  in_uint 12 /\
  (forall st : count_state,
     nCopy st = 12 -> 12 <> 0 ->
     in_uint (nCopy (count_body st)) /\ nCopy (count_body st) < nCopy st) /\
  (exists r : Z,
     forall fuel : nat, (32 < fuel)%nat -> GetBitCount fuel 12 = Some r).
Proof.
  assert (Hx : in_uint 12) by (unfold in_uint, uint_max; lia).
  split; [exact Hx |].
  apply (GetBitCount_terminates 12 Hx).
Defined.

End BitCount.

(** ** BitsAreInAltOrder *)

Section Alternation.

(** *** The test [((num + 1) & num) == 0] *)

Lemma ones_succ_land (k : Z) :
  0 <= k -> Z.land (Z.ones k + 1) (Z.ones k) = 0.
Proof.
  intros Hk. rewrite Z.land_ones by exact Hk.
  rewrite Z.ones_equiv.
  replace (Z.pred (2 ^ k) + 1) with (2 ^ k) by lia.
  apply Z_mod_same_full.
Qed.

Lemma succ_land_zero_ones (w : nat) :
  forall u : Z,
    0 <= u < 2 ^ Z.of_nat w -> Z.land (u + 1) u = 0 ->
    exists k : Z, 0 <= k /\ u = Z.ones k.
Proof.
  induction w as [| w IH]; intros u Hu Hland.
  - exists 0. simpl in Hu. split; [lia |]. change (Z.ones 0) with 0. lia.
  - assert (Hd : 0 <= Z.div2 u < 2 ^ Z.of_nat w) by (apply div2_bound; lia).
    assert (Hhalf : Z.land (Z.div2 (u + 1)) (Z.div2 u) = 0).
    { rewrite <- div2_land, Hland. reflexivity. }
    pose proof (Z.div2_odd u) as Hu2.
    destruct (Z.odd u) eqn:Hodd; simpl Z.b2z in Hu2.
    + assert (Hs : Z.odd (u + 1) = false).
      { rewrite Z.odd_add, Hodd. reflexivity. }
      destruct (pred_of_even (u + 1) Hs) as [_ Hq].
      replace (u + 1 - 1) with u in Hq by lia.
      replace (Z.div2 (u + 1)) with (Z.div2 u + 1) in Hhalf by lia.
      destruct (IH (Z.div2 u) Hd Hhalf) as (k & Hk & Hones).
      exists (Z.succ k). split; [lia |].
      rewrite Z.ones_equiv, Z.pow_succ_r by exact Hk.
      rewrite Z.ones_equiv in Hones. lia.
    + assert (Hs : Z.odd (u + 1) = true).
      { rewrite Z.odd_add, Hodd. reflexivity. }
      destruct (pred_of_odd (u + 1) Hs) as [_ Hq].
      replace (u + 1 - 1) with u in Hq by lia.
      rewrite <- Hq, Z.land_diag in Hhalf.
      exists 0. split; [lia |]. change (Z.ones 0) with 0. lia.
Qed.

(** On an [unsigned int] [u], the wrapped test succeeds exactly when [u]
    is a block of ones starting at bit 0; the block of all 32 ones is
    where [u + 1] wraps to 0. *)
Lemma wrapped_test_ones (u : Z) :
  in_uint u ->
  Z.land (wrap_uint (u + 1)) u = 0 <-> exists k : Z, 0 <= k /\ u = Z.ones k.
Proof.
  unfold in_uint, uint_max. intros Hu.
  destruct (Z.eq_dec u (2 ^ 32 - 1)) as [-> | Hne].
  - split; [| reflexivity].
    intros _. exists 32. split; [lia | reflexivity].
  - rewrite wrap_uint_id by (unfold in_uint, uint_max; lia).
    split.
    + apply (succ_land_zero_ones 32). change (Z.of_nat 32) with 32. lia.
    + intros (k & Hk & ->). apply ones_succ_land, Hk.
Qed.

(** *** The bits of [n ^ (n >> 1)] *)

Lemma testbit_uint_high (n i : Z) :
  in_uint n -> 32 <= i -> Z.testbit n i = false.
Proof.
  intros Hn Hi. rewrite <- (wrap_uint_id n Hn), testbit_wrap_uint.
  replace (i <? 32) with false; [reflexivity |].
  symmetry. apply Z.ltb_ge. exact Hi.
Qed.

Lemma testbit_gray (n i : Z) :
  0 <= i ->
  Z.testbit (Z.lxor n (Z.shiftr n 1)) i
  = xorb (Z.testbit n i) (Z.testbit n (i + 1)).
Proof.
  intros Hi. rewrite Z.lxor_spec, Z.shiftr_spec by exact Hi. reflexivity.
Qed.

Lemma gray_in_uint (n : Z) : in_uint n -> in_uint (Z.lxor n (Z.shiftr n 1)).
Proof.
  intros Hn.
  replace (Z.lxor n (Z.shiftr n 1))
    with (wrap_uint (Z.lxor n (Z.shiftr n 1))); [apply wrap_uint_in_uint |].
  apply Z.bits_inj'. intros i Hi.
  rewrite testbit_wrap_uint.
  destruct (Z.ltb_spec i 32) as [Hlt | Hge]; [reflexivity |].
  rewrite testbit_gray by exact Hi.
  rewrite !(testbit_uint_high n) by (assumption || lia). reflexivity.
Qed.

(** [n ^ (n >> 1)] is a block of ones starting at bit 0 exactly when the
    bits of [n] alternate below its leading one. *)
Lemma gray_ones_alternating (n : Z) :
  0 <= n ->
  (exists k : Z, 0 <= k /\ Z.lxor n (Z.shiftr n 1) = Z.ones k)
  <-> alternating n.
Proof.
  intros Hn. unfold alternating.
  destruct (Z.eq_dec n 0) as [-> | Hnz].
  { split.
    - intros _ i Hi. change (Z.log2 0) with 0 in Hi. lia.
    - intros _. exists 0. split; [lia | reflexivity]. }
  assert (Hpos : 0 < n) by lia.
  pose proof (Z.log2_nonneg n) as HL.
  assert (Htop : Z.testbit (Z.lxor n (Z.shiftr n 1)) (Z.log2 n) = true).
  { rewrite testbit_gray by exact HL.
    rewrite Z.bit_log2 by exact Hpos.
    rewrite (Z.bits_above_log2 n (Z.log2 n + 1)) by lia. reflexivity. }
  assert (Habove : forall i, Z.log2 n < i ->
                     Z.testbit (Z.lxor n (Z.shiftr n 1)) i = false).
  { intros i Hi. rewrite testbit_gray by lia.
    rewrite !(Z.bits_above_log2 n) by lia. reflexivity. }
  split.
  - intros (k & Hk & Hones) i Hi.
    rewrite Hones in Htop, Habove.
    rewrite Z.testbit_ones_nonneg in Htop by lia.
    apply Z.ltb_lt in Htop.
    pose proof (testbit_gray n i (proj1 Hi)) as Hbit.
    rewrite Hones, Z.testbit_ones_nonneg in Hbit by lia.
    replace (i <? k) with true in Hbit by (symmetry; apply Z.ltb_lt; lia).
    destruct (Z.testbit n i), (Z.testbit n (i + 1)); simpl in Hbit;
      congruence.
  - intros Halt. exists (Z.log2 n + 1). split; [lia |].
    apply Z.bits_inj'. intros i Hi.
    rewrite Z.testbit_ones_nonneg by lia.
    destruct (Z.ltb_spec i (Z.log2 n + 1)) as [Hlt | Hge].
    + destruct (Z.eq_dec i (Z.log2 n)) as [-> | Hne]; [exact Htop |].
      rewrite testbit_gray by exact Hi.
      specialize (Halt i ltac:(lia)).
      destruct (Z.testbit n i), (Z.testbit n (i + 1)); simpl;
        congruence.
    + apply Habove. lia.
Qed.

(** C6: for every [unsigned int] [n], [BitsAreInAltOrder n] holds exactly
    when the bits of [n] strictly alternate: below the leading one of [n],
    every two adjacent bits differ. *)
Theorem BitsAreInAltOrder_iff_alternating (n : Z) :
  in_uint n -> BitsAreInAltOrder n = true <-> alternating n.
Proof.
  intros Hn. unfold BitsAreInAltOrder. cbv zeta.
  rewrite Z.eqb_eq.
  rewrite (wrapped_test_ones _ (gray_in_uint n Hn)).
  apply gray_ones_alternating. unfold in_uint in Hn. lia.
Qed.

Lemma BitsAreInAltOrder_iff_alternating_witness :
  in_uint 10 /\ (BitsAreInAltOrder 10 = true <-> alternating 10).
Proof.
  assert (Hn : in_uint 10) by (unfold in_uint, uint_max; lia).
  split; [exact Hn |].
  apply (BitsAreInAltOrder_iff_alternating 10 Hn).
Defined.

Example BitsAreInAltOrder_1010 : BitsAreInAltOrder 10 = true.
Proof. reflexivity. Qed.

Example BitsAreInAltOrder_1011 : BitsAreInAltOrder 11 = false.
Proof. reflexivity. Qed.

Example BitsAreInAltOrder_0 : BitsAreInAltOrder 0 = true.
Proof. reflexivity. Qed.

(** The pattern with all of bits 1, 3, ..., 31 set makes [num + 1] wrap. *)
Example BitsAreInAltOrder_top : BitsAreInAltOrder 2863311530 = true.
Proof. reflexivity. Qed.

Example alternating_1011_fails : ~ alternating 11.
Proof.
  intros H. apply (H 0); [change (Z.log2 11) with 3; lia | reflexivity].
Qed.

End Alternation.

(** ** GeneratePseudoRandomNumber *)

Section Xorshift.

(** *** Ranges and 32-bit patterns of the three statements *)

Lemma bit_pattern_lxor (a b : Z) :
  bit_pattern (Z.lxor a b) = Z.lxor (bit_pattern a) (bit_pattern b).
Proof.
  unfold bit_pattern. apply Z.bits_inj'. intros i _.
  rewrite Z.lxor_spec, !testbit_wrap_uint, Z.lxor_spec.
  destruct (i <? 32); reflexivity.
Qed.

Lemma wrap_uint_shiftl (k x : Z) :
  0 <= k -> wrap_uint (Z.shiftl x k) = wrap_uint (Z.shiftl (wrap_uint x) k).
Proof.
  intros Hk. apply Z.bits_inj'. intros i Hi.
  rewrite !testbit_wrap_uint, !Z.shiftl_spec, testbit_wrap_uint by exact Hi.
  destruct (Z.ltb_spec i 32) as [Hlt | Hge]; [| reflexivity].
  replace (i - k <? 32) with true; [reflexivity |].
  symmetry. apply Z.ltb_lt. lia.
Qed.

Lemma bit_pattern_xor_shl (k x : Z) :
  0 <= k -> bit_pattern (xor_shl k x) = uxor_shl k (bit_pattern x).
Proof.
  intros Hk. unfold xor_shl, uxor_shl.
  rewrite bit_pattern_lxor. f_equal.
  unfold bit_pattern. rewrite wrap_uint_wrap_int.
  apply wrap_uint_shiftl, Hk.
Qed.

Lemma lxor_in_int (a b : Z) : in_int a -> in_int b -> in_int (Z.lxor a b).
Proof.
  intros Ha Hb.
  replace (Z.lxor a b) with (wrap_int (Z.lxor a b)); [apply wrap_int_in_int |].
  apply Z.bits_inj'. intros i Hi.
  rewrite testbit_wrap_int, !Z.lxor_spec.
  destruct (Z_lt_le_dec i 31) as [Hlo | Hhi].
  - rewrite Z.min_l by lia. reflexivity.
  - rewrite Z.min_r by lia.
    rewrite (testbit_int_high a i Ha Hhi), (testbit_int_high b i Hb Hhi).
    reflexivity.
Qed.

Lemma shiftr_in_int (k x : Z) : 0 <= k -> in_int x -> in_int (Z.shiftr x k).
Proof.
  unfold in_int, int_min, int_max. intros Hk Hx.
  rewrite Z.shiftr_div_pow2 by exact Hk.
  assert (Hpow : 0 < 2 ^ k) by (apply Z.pow_pos_nonneg; lia).
  split.
  - apply Z.div_le_lower_bound; [exact Hpow |]. nia.
  - apply Z.lt_succ_r. apply Z.div_lt_upper_bound; [exact Hpow |]. nia.
Qed.

Lemma xor_shl_in_int (k x : Z) : in_int x -> in_int (xor_shl k x).
Proof. intros Hx. apply lxor_in_int; [exact Hx | apply wrap_int_in_int]. Qed.

Lemma xor_shr_in_int (k x : Z) : 0 <= k -> in_int x -> in_int (xor_shr k x).
Proof.
  intros Hk Hx. apply lxor_in_int; [exact Hx | apply shiftr_in_int; assumption].
Qed.

Lemma xor_shr_nonneg (k x : Z) : 0 <= x -> 0 <= xor_shr k x.
Proof.
  intros Hx. unfold xor_shr. apply Z.lxor_nonneg.
  rewrite Z.shiftr_nonneg. tauto.
Qed.

(** A non-negative [int] is its own 32-bit pattern. *)
Lemma bit_pattern_nonneg (x : Z) : in_int x -> 0 <= x -> bit_pattern x = x.
Proof.
  unfold in_int, int_max. intros Hx Hpos.
  apply wrap_uint_id. unfold in_uint, uint_max. lia.
Qed.

Lemma bit_pattern_testbit (x i : Z) :
  i < 32 -> Z.testbit (bit_pattern x) i = Z.testbit x i.
Proof.
  intros Hi. unfold bit_pattern. rewrite testbit_wrap_uint.
  replace (i <? 32) with true; [reflexivity |].
  symmetry. apply Z.ltb_lt, Hi.
Qed.

(** *** The intermediate value after [x ^= x << 13] *)

Lemma first_step_pattern (seed : Z) :
  in_uint seed ->
  bit_pattern (xor_shl 13 (wrap_int seed)) = uxor_shl 13 (wrap_uint seed).
Proof.
  intros Hs. rewrite bit_pattern_xor_shl by lia.
  unfold bit_pattern. rewrite wrap_uint_wrap_int. reflexivity.
Qed.

(** Its sign bit is bit 31 of the seed xor bit 18 of the seed. *)
Lemma first_step_sign (seed : Z) :
  Z.testbit (xor_shl 13 (wrap_int seed)) 31
  = xorb (Z.testbit seed 31) (Z.testbit seed 18).
Proof.
  unfold xor_shl.
  rewrite Z.lxor_spec, !testbit_wrap_int.
  change (Z.min 31 31) with 31.
  rewrite Z.shiftl_spec, testbit_wrap_int by lia.
  reflexivity.
Qed.

(** *** When the intermediate value is non-negative *)

Lemma tail_agrees_nonneg (x1 : Z) :
  in_int x1 -> 0 <= x1 ->
  bit_pattern (xor_shl 5 (xor_shr 17 x1))
  = uxor_shl 5 (uxor_shr 17 (bit_pattern x1)).
Proof.
  intros Hx Hpos.
  rewrite bit_pattern_xor_shl by lia.
  rewrite (bit_pattern_nonneg x1 Hx Hpos).
  rewrite bit_pattern_nonneg.
  - reflexivity.
  - apply xor_shr_in_int; [lia | exact Hx].
  - apply xor_shr_nonneg, Hpos.
Qed.

(** *** When the intermediate value is negative: bit 15 of the result *)

Lemma tail_bit15_signed (x1 : Z) :
  in_int x1 ->
  Z.testbit (bit_pattern (xor_shl 5 (xor_shr 17 x1))) 15
  = xorb (xorb (Z.testbit x1 15) (Z.testbit x1 31))
         (xorb (Z.testbit x1 10) (Z.testbit x1 27)).
Proof.
  intros Hx.
  rewrite bit_pattern_testbit by lia.
  unfold xor_shl, xor_shr.
  rewrite Z.lxor_spec, testbit_wrap_int.
  change (Z.min 15 31) with 15.
  rewrite Z.shiftl_spec by lia.
  rewrite !Z.lxor_spec, !Z.shiftr_spec by lia.
  change (15 + 17) with 32. change (15 - 5 + 17) with 27.
  change (15 - 5) with 10.
  rewrite (testbit_int_high x1 32 Hx) by lia.
  reflexivity.
Qed.

Lemma tail_bit15_unsigned (x1 : Z) :
  Z.testbit (uxor_shl 5 (uxor_shr 17 (bit_pattern x1))) 15
  = xorb (Z.testbit x1 15) (xorb (Z.testbit x1 10) (Z.testbit x1 27)).
Proof.
  unfold uxor_shl, uxor_shr.
  rewrite Z.lxor_spec, testbit_wrap_uint.
  rewrite Z.shiftl_spec by lia.
  rewrite !Z.lxor_spec, !Z.shiftr_spec by lia.
  change (15 + 17) with 32. change (15 - 5 + 17) with 27.
  change (15 - 5) with 10.
  unfold bit_pattern. rewrite !testbit_wrap_uint.
  change (15 <? 32) with true. change (32 <? 32) with false.
  change (10 <? 32) with true. change (27 <? 32) with true.
  simpl andb. rewrite xorb_false_r. reflexivity.
Qed.

Lemma GeneratePseudoRandomNumber_in_int (seed : Z) :
  in_int (GeneratePseudoRandomNumber seed).
Proof.
  unfold GeneratePseudoRandomNumber. cbv zeta.
  apply xor_shl_in_int, xor_shr_in_int; [lia |].
  apply xor_shl_in_int, wrap_int_in_int.
Qed.

(** C2 (as amended): for every 32-bit unsigned seed, the result of
    [GeneratePseudoRandomNumber] is an [int] whose 32-bit pattern is the
    value of the unsigned xorshift computation exactly when bits 18 and 31
    of the seed are equal, that is, when the [int] obtained after
    [x ^= x << 13] is non-negative.  For the other seeds the signed
    [x >> 17] fills with ones and the two results differ. *)
Theorem GeneratePseudoRandomNumber_unsigned_iff (seed : Z) :
  in_uint seed ->
  bit_pattern (GeneratePseudoRandomNumber seed) = xorshift32_unsigned seed
  <-> Z.testbit seed 18 = Z.testbit seed 31.
Proof.
  intros Hs.
  pose proof (first_step_pattern seed Hs) as Hpat.
  pose proof (first_step_sign seed) as Hsign.
  assert (Hx1 : in_int (xor_shl 13 (wrap_int seed)))
    by apply xor_shl_in_int, wrap_int_in_int.
  unfold GeneratePseudoRandomNumber, xorshift32_unsigned. cbv zeta.
  rewrite <- Hpat.
  set (x1 := xor_shl 13 (wrap_int seed)) in *.
  split.
  - intros Heq.
    apply (f_equal (fun z => Z.testbit z 15)) in Heq.
    rewrite (tail_bit15_signed x1 Hx1), tail_bit15_unsigned, Hsign in Heq.
    destruct (Z.testbit seed 18), (Z.testbit seed 31); try reflexivity;
      destruct (Z.testbit x1 15), (Z.testbit x1 10), (Z.testbit x1 27);
      discriminate Heq.
  - intros Hbits. apply tail_agrees_nonneg; [exact Hx1 |].
    rewrite (testbit_int_sign x1 31 Hx1), Hbits, xorb_nilpotent in Hsign
      by lia.
    apply Z.ltb_ge. exact Hsign.
Qed.

Lemma GeneratePseudoRandomNumber_unsigned_iff_witness :
  in_uint 1 /\
  (bit_pattern (GeneratePseudoRandomNumber 1) = xorshift32_unsigned 1
   <-> Z.testbit 1 18 = Z.testbit 1 31).
Proof.
  assert (Hs : in_uint 1) by (unfold in_uint, uint_max; lia).
  split; [exact Hs |].
  apply (GeneratePseudoRandomNumber_unsigned_iff 1 Hs).
Defined.

(** C2 (as stated) fails at the seed 2^18 = 262144: [x << 13] sets the sign
    bit of the [int], [x >> 17] then fills with ones, and the result is not
    the unsigned xorshift value, neither as a 32-bit pattern nor after
    conversion of that value to [int]. *)
Lemma GeneratePseudoRandomNumber_signed_shift_differs :
  in_uint 262144 /\
  GeneratePseudoRandomNumber 262144 = -2138849214 /\
  xorshift32_unsigned 262144 = 2156675138 /\
  bit_pattern (GeneratePseudoRandomNumber 262144)
    <> xorshift32_unsigned 262144 /\
  GeneratePseudoRandomNumber 262144
    <> wrap_int (xorshift32_unsigned 262144).
Proof.
  split; [unfold in_uint, uint_max; lia |].
  split; [reflexivity |]. split; [reflexivity |].
  split; vm_compute; discriminate.
Qed.

Example GeneratePseudoRandomNumber_1 :
  GeneratePseudoRandomNumber 1 = 270369 /\ xorshift32_unsigned 1 = 270369.
Proof. split; reflexivity. Qed.

End Xorshift.

(** * Further properties of the eight functions *)

(** ** SwapNumbers: the resulting memory, and how calls compose *)

Section SwapCompose.

Implicit Types (a b : addr) (m : gmap addr Z).

(** On distinct allocated addresses the call returns the memory in which
    the two values have changed places. *)
Lemma SwapNumbers_result a b m (va vb : Z) :
  a <> b -> m !! a = Some va -> m !! b = Some vb ->
  SwapNumbers a b m = Some (<[a := vb]> (<[b := va]> m)).
Proof.
  intros Hab Ha Hb. unfold SwapNumbers.
  rewrite (xor_assign_some a b m va vb Ha Hb). simpl.
  rewrite (xor_assign_some b a _ vb (Z.lxor va vb)).
  2: { rewrite lookup_insert_ne by exact Hab. exact Hb. }
  2: { apply lookup_insert_eq. }
  simpl.
  rewrite (xor_assign_some a b _ (Z.lxor va vb) (Z.lxor vb (Z.lxor va vb))).
  2: { rewrite lookup_insert_ne by congruence. apply lookup_insert_eq. }
  2: { apply lookup_insert_eq. }
  f_equal.
  rewrite !lxor_cancel_l.
  rewrite (insert_insert_ne _ b a) by congruence.
  rewrite insert_insert_eq. reflexivity.
Qed.

(** Swapping twice gives back the memory the first call started from. *)
Theorem SwapNumbers_twice_restores a b m (va vb : Z) :
  a <> b -> m !! a = Some va -> m !! b = Some vb ->
  SwapNumbers a b m ≫= SwapNumbers a b = Some m.
Proof.
  intros Hab Ha Hb.
  rewrite (SwapNumbers_result a b m va vb Hab Ha Hb). simpl.
  rewrite (SwapNumbers_result a b _ vb va Hab).
  2: { apply lookup_insert_eq. }
  2: { rewrite lookup_insert_ne by exact Hab. apply lookup_insert_eq. }
  f_equal.
  rewrite (insert_insert_ne _ a b) by exact Hab.
  rewrite insert_insert_eq.
  rewrite (insert_insert_ne _ b a) by congruence.
  rewrite insert_insert_eq.
  rewrite (insert_id m b vb Hb). apply insert_id, Ha.
Qed.

Lemma SwapNumbers_twice_restores_witness :
  (1%positive : addr) <> 2%positive /\
  swap_example !! (1%positive : addr) = Some 5 /\
  swap_example !! (2%positive : addr) = Some (-7) /\
  SwapNumbers 1%positive 2%positive swap_example
    ≫= SwapNumbers 1%positive 2%positive = Some swap_example.
Proof.
  assert (Hab : (1%positive : addr) <> 2%positive) by discriminate.
  assert (Ha : swap_example !! (1%positive : addr) = Some 5) by reflexivity.
  assert (Hb : swap_example !! (2%positive : addr) = Some (-7))
    by reflexivity.
  repeat (split; [assumption |]).
  apply (SwapNumbers_twice_restores _ _ swap_example 5 (-7) Hab Ha Hb).
Defined.

(** The order of the two arguments does not matter. *)
Theorem SwapNumbers_argument_order a b m (va vb : Z) :
  a <> b -> m !! a = Some va -> m !! b = Some vb ->
  SwapNumbers a b m = SwapNumbers b a m.
Proof.
  intros Hab Ha Hb.
  rewrite (SwapNumbers_result a b m va vb Hab Ha Hb).
  rewrite (SwapNumbers_result b a m vb va) by (congruence || assumption).
  f_equal. apply insert_insert_ne. congruence.
Qed.

Lemma SwapNumbers_argument_order_witness :
  (1%positive : addr) <> 2%positive /\
  swap_example !! (1%positive : addr) = Some 5 /\
  swap_example !! (2%positive : addr) = Some (-7) /\
  SwapNumbers 1%positive 2%positive swap_example
  = SwapNumbers 2%positive 1%positive swap_example.
Proof.
  assert (Hab : (1%positive : addr) <> 2%positive) by discriminate.
  assert (Ha : swap_example !! (1%positive : addr) = Some 5) by reflexivity.
  assert (Hb : swap_example !! (2%positive : addr) = Some (-7))
    by reflexivity.
  repeat (split; [assumption |]).
  apply (SwapNumbers_argument_order _ _ swap_example 5 (-7) Hab Ha Hb).
Defined.

End SwapCompose.

(** ** GetBitCount: cost, extreme values, and bitwise arguments *)

Section BitCountMore.

Lemma popcount_0 : popcount 0 = 0.
Proof. apply (ones_below_0 32). Qed.

Lemma popcount_zero_iff (x : Z) : in_uint x -> popcount x = 0 <-> x = 0.
Proof.
  intros Hx. split.
  - intros Hp. destruct (Z.eq_dec x 0) as [| Hnz]; [assumption |].
    pose proof (clear_lowest_popcount x Hx Hnz).
    pose proof (popcount_range (Z.land x (x - 1))). lia.
  - intros ->. apply popcount_0.
Qed.

(** With no more fuel than there are ones, the loop is still running when
    the fuel is used up. *)
Lemma count_loop_short (fuel : nat) :
  forall st : count_state,
    in_uint (nCopy st) -> Z.of_nat fuel <= popcount (nCopy st) ->
    count_loop fuel st = None.
Proof.
  induction fuel as [| fuel IH]; intros st Hx Hfuel; [reflexivity |].
  simpl count_loop.
  assert (Hnz : nCopy st <> 0).
  { intros H0. rewrite H0, popcount_0 in Hfuel. lia. }
  replace (bool_of_int (nCopy st)) with true
    by (symmetry; apply bool_of_int_true, Hnz).
  pose proof (clear_lowest_popcount _ Hx Hnz) as Hpop.
  pose proof (clear_lowest_decreases _ Hx Hnz) as [Hin _].
  apply IH; rewrite count_body_nCopy by assumption; [exact Hin | lia].
Qed.

(** The loop body runs exactly [popcount x] times: the function returns
    when, and only when, it may test the loop condition more often than
    [x] has ones. *)
Theorem GetBitCount_exact_cost (x : Z) (fuel : nat) :
  in_uint x ->
  GetBitCount fuel x
  = if popcount x <? Z.of_nat fuel then Some (popcount x) else None.
Proof.
  intros Hx.
  destruct (Z.ltb_spec (popcount x) (Z.of_nat fuel)) as [Hlt | Hge].
  - apply GetBitCount_enough_fuel; assumption.
  - unfold GetBitCount. rewrite count_loop_short; [reflexivity | exact Hx |].
    simpl. exact Hge.
Qed.

Lemma GetBitCount_exact_cost_witness :
  in_uint 7 /\
  GetBitCount 3 7 = if popcount 7 <? Z.of_nat 3 then Some (popcount 7) else None.
Proof.
  assert (Hx : in_uint 7) by (unfold in_uint, uint_max; lia).
  split; [exact Hx |].
  apply (GetBitCount_exact_cost 7 3 Hx).
Defined.

(** *** Counts 0 and 1 *)

Lemma land_pred_zero_power (x : Z) :
  in_uint x -> x <> 0 -> Z.land x (x - 1) = 0 <-> power_of_two x.
Proof.
  unfold in_uint, uint_max, power_of_two. intros Hx Hnz. split.
  - intros Hland.
    destruct (succ_land_zero_ones 32 (x - 1)) as (k & Hk & Hones).
    + change (Z.of_nat 32) with 32. lia.
    + replace (x - 1 + 1) with x by lia. exact Hland.
    + exists k. split; [exact Hk |].
      rewrite Z.ones_equiv in Hones. lia.
  - intros (k & Hk & ->).
    pose proof (ones_succ_land k Hk) as H.
    rewrite Z.ones_equiv in H.
    replace (Z.pred (2 ^ k) + 1) with (2 ^ k) in H by lia.
    replace (2 ^ k - 1) with (Z.pred (2 ^ k)) by lia. exact H.
Qed.

(** The count is 1 exactly on the powers of two. *)
Theorem GetBitCount_one_iff_power_of_two (x : Z) :
  in_uint x -> GetBitCount 33 x = Some 1 <-> power_of_two x.
Proof.
  intros Hx.
  rewrite (GetBitCount_enough_fuel 33 x Hx)
    by (pose proof (popcount_range x); lia).
  destruct (Z.eq_dec x 0) as [-> | Hnz].
  { rewrite popcount_0. split; [discriminate |].
    intros (k & Hk & Hpow). pose proof (Z.pow_pos_nonneg 2 k). lia. }
  pose proof (clear_lowest_popcount x Hx Hnz) as Hpop.
  pose proof (clear_lowest_decreases x Hx Hnz) as [Hin _].
  rewrite <- (land_pred_zero_power x Hx Hnz).
  rewrite <- (popcount_zero_iff _ Hin).
  split.
  - intros [= H1]. lia.
  - intros H0. f_equal. lia.
Qed.

Lemma GetBitCount_one_iff_power_of_two_witness :
  in_uint 64 /\ (GetBitCount 33 64 = Some 1 <-> power_of_two 64).
Proof.
  assert (Hx : in_uint 64) by (unfold in_uint, uint_max; lia).
  split; [exact Hx |].
  apply (GetBitCount_one_iff_power_of_two 64 Hx).
Defined.

(** [IsAtLeastOneBitSet] agrees with a positive count of the ones of the
    32-bit pattern of its argument. *)
Theorem IsAtLeastOneBitSet_iff_positive_count (x : Z) :
  in_int x ->
  IsAtLeastOneBitSet x = true
  <-> exists r : Z, GetBitCount 33 (bit_pattern x) = Some r /\ 0 < r.
Proof.
  intros Hx.
  pose proof (bit_pattern_in_uint x) as Hu.
  pose proof (popcount_range (bit_pattern x)) as Hr.
  rewrite (GetBitCount_enough_fuel 33 _ Hu) by lia.
  unfold IsAtLeastOneBitSet. rewrite Z.lor_0_r, bool_of_int_true.
  split.
  - intros Hnz. exists (popcount (bit_pattern x)). split; [reflexivity |].
    assert (popcount (bit_pattern x) <> 0); [| lia].
    rewrite (popcount_zero_iff _ Hu).
    intros H0. apply Hnz, bit_pattern_zero; assumption.
  - intros (r & [= <-] & Hpos) ->.
    change (bit_pattern 0) with 0 in Hpos. rewrite popcount_0 in Hpos. lia.
Qed.

Lemma IsAtLeastOneBitSet_iff_positive_count_witness :
  in_int (-1) /\
  (IsAtLeastOneBitSet (-1) = true
   <-> exists r : Z, GetBitCount 33 (bit_pattern (-1)) = Some r /\ 0 < r).
Proof.
  assert (Hx : in_int (-1)) by (unfold in_int, int_min, int_max; lia).
  split; [exact Hx |].
  apply (IsAtLeastOneBitSet_iff_positive_count (-1) Hx).
Defined.

(** [CompareIntegers] holds exactly when the two 32-bit patterns differ in
    no bit position: the count of [a ^ b] is 0. *)
Theorem CompareIntegers_iff_zero_distance (a b : Z) :
  in_int a -> in_int b ->
  CompareIntegers a b = true
  <-> GetBitCount 33 (bit_pattern (Z.lxor a b)) = Some 0.
Proof.
  intros Ha Hb.
  pose proof (bit_pattern_in_uint (Z.lxor a b)) as Hu.
  pose proof (popcount_range (bit_pattern (Z.lxor a b))) as Hr.
  rewrite (GetBitCount_enough_fuel 33 _ Hu) by lia.
  unfold CompareIntegers. rewrite Z.eqb_eq.
  split.
  - intros ->. reflexivity.
  - intros [= H0]. apply (popcount_zero_iff _ Hu) in H0.
    apply bit_pattern_zero; [apply lxor_in_int; assumption | exact H0].
Qed.

Lemma CompareIntegers_iff_zero_distance_witness :
  in_int (-7) /\ in_int 12 /\
  (CompareIntegers (-7) 12 = true
   <-> GetBitCount 33 (bit_pattern (Z.lxor (-7) 12)) = Some 0).
Proof.
  assert (Ha : in_int (-7)) by (unfold in_int, int_min, int_max; lia).
  assert (Hb : in_int 12) by (unfold in_int, int_min, int_max; lia).
  split; [exact Ha | split; [exact Hb |]].
  apply (CompareIntegers_iff_zero_distance (-7) 12 Ha Hb).
Defined.

End BitCountMore.

(** ** GetBitCount and the bitwise operators *)

Section BitCountAlgebra.

Lemma ones_below_land_lor (w : nat) (a b : Z) :
  ones_below w (Z.land a b) + ones_below w (Z.lor a b)
  = ones_below w a + ones_below w b.
Proof.
  induction w as [| w IH]; [reflexivity |].
  cbn [ones_below]. rewrite Z.land_spec, Z.lor_spec.
  destruct (Z.testbit a (Z.of_nat w)), (Z.testbit b (Z.of_nat w));
    simpl Z.b2z; lia.
Qed.

Lemma ones_below_lxor (w : nat) (a b : Z) :
  ones_below w (Z.lxor a b) + 2 * ones_below w (Z.land a b)
  = ones_below w a + ones_below w b.
Proof.
  induction w as [| w IH]; [reflexivity |].
  cbn [ones_below]. rewrite Z.land_spec, Z.lxor_spec.
  destruct (Z.testbit a (Z.of_nat w)), (Z.testbit b (Z.of_nat w));
    simpl Z.b2z; lia.
Qed.

Lemma ones_below_complement (w : nat) (x : Z) :
  (w <= 32)%nat ->
  ones_below w (wrap_uint (Z.lnot x)) + ones_below w x = Z.of_nat w.
Proof.
  induction w as [| w IH]; intros Hw; [reflexivity |].
  cbn [ones_below]. rewrite testbit_wrap_uint, Z.lnot_spec by lia.
  replace (Z.of_nat w <? 32) with true by (symmetry; apply Z.ltb_lt; lia).
  specialize (IH ltac:(lia)). rewrite Nat2Z.inj_succ.
  destruct (Z.testbit x (Z.of_nat w)); simpl; lia.
Qed.

Lemma popcount_complement (x : Z) :
  popcount (wrap_uint (Z.lnot x)) + popcount x = 32.
Proof. unfold popcount. apply (ones_below_complement 32 x). lia. Qed.

(** [~x] on an [unsigned int]. *)
Lemma complement_value (x : Z) :
  in_uint x -> wrap_uint (Z.lnot x) = uint_max - x.
Proof.
  unfold in_uint, uint_max, wrap_uint. intros Hx.
  rewrite Z.lnot_eq_pred_opp.
  symmetry. apply Z.mod_unique with (q := -1); lia.
Qed.

Lemma uint_closed (f : bool -> bool -> bool) (op : Z -> Z -> Z) (a b : Z) :
  f false false = false ->
  (forall i, Z.testbit (op a b) i = f (Z.testbit a i) (Z.testbit b i)) ->
  in_uint a -> in_uint b -> in_uint (op a b).
Proof.
  intros Hf Hop Ha Hb.
  replace (op a b) with (wrap_uint (op a b)); [apply wrap_uint_in_uint |].
  apply Z.bits_inj'. intros i Hi.
  rewrite testbit_wrap_uint.
  destruct (Z.ltb_spec i 32) as [Hlt | Hge]; [reflexivity |].
  rewrite Hop, (testbit_uint_high a i Ha Hge), (testbit_uint_high b i Hb Hge).
  simpl. symmetry. exact Hf.
Qed.

Lemma land_in_uint (a b : Z) : in_uint a -> in_uint b -> in_uint (Z.land a b).
Proof. apply (uint_closed andb); [reflexivity | apply Z.land_spec]. Qed.

Lemma lor_in_uint (a b : Z) : in_uint a -> in_uint b -> in_uint (Z.lor a b).
Proof. apply (uint_closed orb); [reflexivity | apply Z.lor_spec]. Qed.

Lemma lxor_in_uint (a b : Z) : in_uint a -> in_uint b -> in_uint (Z.lxor a b).
Proof. apply (uint_closed xorb); [reflexivity | apply Z.lxor_spec]. Qed.

Lemma GetBitCount_33 (x : Z) :
  in_uint x -> GetBitCount 33 x = Some (popcount x).
Proof.
  intros Hx. apply GetBitCount_enough_fuel; [exact Hx |].
  pose proof (popcount_range x). lia.
Qed.

(** The counts of [a & b], [a | b] and [a ^ b] are tied to the counts of
    [a] and [b]: ones common to both are counted twice in the sum, once in
    [a | b], and not at all in [a ^ b]. *)
Theorem GetBitCount_and_or_xor (a b : Z) :
  in_uint a -> in_uint b ->
  exists ra rb rand ror rxor : Z,
    GetBitCount 33 a = Some ra /\ GetBitCount 33 b = Some rb /\
    GetBitCount 33 (Z.land a b) = Some rand /\
    GetBitCount 33 (Z.lor a b) = Some ror /\
    GetBitCount 33 (Z.lxor a b) = Some rxor /\
    rand + ror = ra + rb /\ rxor + 2 * rand = ra + rb.
Proof.
  intros Ha Hb.
  exists (popcount a), (popcount b), (popcount (Z.land a b)),
    (popcount (Z.lor a b)), (popcount (Z.lxor a b)).
  repeat split.
  - apply GetBitCount_33, Ha.
  - apply GetBitCount_33, Hb.
  - apply GetBitCount_33, land_in_uint; assumption.
  - apply GetBitCount_33, lor_in_uint; assumption.
  - apply GetBitCount_33, lxor_in_uint; assumption.
  - apply ones_below_land_lor.
  - apply ones_below_lxor.
Qed.

Lemma GetBitCount_and_or_xor_witness :
  in_uint 12 /\ in_uint 10 /\
  exists ra rb rand ror rxor : Z,
    GetBitCount 33 12 = Some ra /\ GetBitCount 33 10 = Some rb /\
    GetBitCount 33 (Z.land 12 10) = Some rand /\
    GetBitCount 33 (Z.lor 12 10) = Some ror /\
    GetBitCount 33 (Z.lxor 12 10) = Some rxor /\
    rand + ror = ra + rb /\ rxor + 2 * rand = ra + rb.
Proof.
  assert (Ha : in_uint 12) by (unfold in_uint, uint_max; lia).
  assert (Hb : in_uint 10) by (unfold in_uint, uint_max; lia).
  split; [exact Ha | split; [exact Hb |]].
  apply (GetBitCount_and_or_xor 12 10 Ha Hb).
Defined.

(** The result lies between 0 and 32, so the [int] counter cannot
    overflow; it is 0 only for 0 and 32 only for the value with all bits
    set; and the counts of [x] and of its complement [~x] add up to 32. *)
Theorem GetBitCount_range_and_complement (x : Z) :
  in_uint x ->
  exists r r' : Z,
    GetBitCount 33 x = Some r /\
    GetBitCount 33 (wrap_uint (Z.lnot x)) = Some r' /\
    0 <= r <= 32 /\ r + r' = 32 /\
    (r = 0 <-> x = 0) /\ (r = 32 <-> x = uint_max).
Proof.
  intros Hx.
  pose proof (wrap_uint_in_uint (Z.lnot x)) as Hc.
  pose proof (popcount_complement x) as Hsum.
  exists (popcount x), (popcount (wrap_uint (Z.lnot x))).
  split; [apply GetBitCount_33, Hx |].
  split; [apply GetBitCount_33, Hc |].
  split; [apply popcount_range |].
  split; [lia |].
  split; [apply popcount_zero_iff, Hx |].
  pose proof (popcount_zero_iff _ Hc) as Hz.
  rewrite (complement_value x Hx) in Hz.
  rewrite (complement_value x Hx) in Hsum.
  split; intros H; [| apply proj2 in Hz]; lia.
Qed.

Lemma GetBitCount_range_and_complement_witness :
  in_uint 255 /\
  exists r r' : Z,
    GetBitCount 33 255 = Some r /\
    GetBitCount 33 (wrap_uint (Z.lnot 255)) = Some r' /\
    0 <= r <= 32 /\ r + r' = 32 /\
    (r = 0 <-> 255 = 0) /\ (r = 32 <-> 255 = uint_max).
Proof.
  assert (Hx : in_uint 255) by (unfold in_uint, uint_max; lia).
  split; [exact Hx |].
  apply (GetBitCount_range_and_complement 255 Hx).
Defined.

End BitCountAlgebra.


(** ** BitsAreInAltOrder: the accepted values in closed form *)

Section AlternationValues.

(** Dividing a power of two by 3: the remainder is 1 when the quotient is
    odd and 2 when it is even. *)
Lemma pow2_div3 (k : nat) :
  (2 ^ (Z.of_nat k + 1) = 3 * (2 ^ (Z.of_nat k + 1) / 3) + 1 /\
   Z.odd (2 ^ (Z.of_nat k + 1) / 3) = true) \/
  (2 ^ (Z.of_nat k + 1) = 3 * (2 ^ (Z.of_nat k + 1) / 3) + 2 /\
   Z.odd (2 ^ (Z.of_nat k + 1) / 3) = false).
Proof.
  induction k as [| k IH].
  - right. split; reflexivity.
  - replace (Z.of_nat (S k) + 1) with (Z.succ (Z.of_nat k + 1)) by lia.
    rewrite Z.pow_succ_r by lia.
    set (P := 2 ^ (Z.of_nat k + 1)) in *. set (a := P / 3) in *.
    destruct IH as [[HP Hodd] | [HP Hodd]].
    + right.
      assert (Hq : 2 * P / 3 = 2 * a)
        by (symmetry; apply Z.div_unique with (r := 2); lia).
      rewrite Hq. split; [lia | apply Z.odd_even].
    + left.
      assert (Hq : 2 * P / 3 = 2 * a + 1)
        by (symmetry; apply Z.div_unique with (r := 1); lia).
      rewrite Hq. split; [lia | apply Z.odd_odd].
Qed.

(** The next quotient appends to the previous one the opposite of its
    last bit. *)
Lemma pow2_div3_step (k : nat) :
  2 ^ (Z.of_nat (S k) + 1) / 3
  = 2 * (2 ^ (Z.of_nat k + 1) / 3)
    + Z.b2z (negb (Z.odd (2 ^ (Z.of_nat k + 1) / 3))).
Proof.
  replace (Z.of_nat (S k) + 1) with (Z.succ (Z.of_nat k + 1)) by lia.
  rewrite Z.pow_succ_r by lia.
  destruct (pow2_div3 k) as [[HP Hodd] | [HP Hodd]]; rewrite Hodd;
    simpl Z.b2z; symmetry.
  - apply Z.div_unique with (r := 2); lia.
  - apply Z.div_unique with (r := 1); lia.
Qed.

Lemma ones_shiftr_1 (K : Z) :
  0 <= K -> Z.shiftr (Z.ones (Z.succ K)) 1 = Z.ones K.
Proof.
  intros HK. rewrite Z.shiftr_div_pow2, Z.ones_div_pow2 by lia.
  f_equal. lia.
Qed.

Lemma gray_ones_closed_form (k : nat) :
  forall n : Z,
    0 <= n ->
    Z.lxor n (Z.shiftr n 1) = Z.ones (Z.of_nat k)
    <-> n = 2 ^ (Z.of_nat k + 1) / 3.
Proof.
  induction k as [| k IH]; intros n Hn.
  - change (2 ^ (Z.of_nat 0 + 1) / 3) with 0.
    change (Z.ones (Z.of_nat 0)) with 0.
    split.
    + intros H. apply Z.lxor_eq in H.
      rewrite Z.shiftr_div_pow2 in H by lia. change (2 ^ 1) with 2 in H.
      pose proof (Z.div_mod n 2 ltac:(lia)).
      pose proof (Z.mod_pos_bound n 2 ltac:(lia)). lia.
    + intros ->. reflexivity.
  - rewrite pow2_div3_step, Nat2Z.inj_succ.
    set (a := 2 ^ (Z.of_nat k + 1) / 3) in *.
    assert (Hhalf : 0 <= Z.shiftr n 1) by (apply Z.shiftr_nonneg; exact Hn).
    split.
    + intros H.
      assert (Hup : Z.shiftr n 1 = a).
      { apply (IH _ Hhalf).
        rewrite <- Z.shiftr_lxor, H. apply ones_shiftr_1. lia. }
      assert (Hlow : Z.odd n = negb (Z.odd a)).
      { apply (f_equal (fun z => Z.testbit z 0)) in H.
        rewrite testbit_gray, Z.testbit_ones_nonneg in H by lia.
        replace (0 <? Z.succ (Z.of_nat k)) with true in H
          by (symmetry; apply Z.ltb_lt; lia).
        rewrite <- (Z.shiftr_spec n 1 0), Hup, !Z.bit0_odd in H by lia.
        destruct (Z.odd n), (Z.odd a); simpl in H |- *; congruence. }
      rewrite (Z.div2_odd n), Z.div2_spec, Hup, Hlow. reflexivity.
    + intros ->.
      apply Z.bits_inj'. intros i Hi.
      rewrite testbit_gray, Z.testbit_ones_nonneg by lia.
      destruct (Z.eq_dec i 0) as [-> | Hpos].
      * rewrite Z.testbit_0_r.
        change (0 + 1) with (Z.succ 0).
        rewrite Z.testbit_succ_r, Z.bit0_odd by lia.
        replace (0 <? Z.succ (Z.of_nat k)) with true
          by (symmetry; apply Z.ltb_lt; lia).
        destruct (Z.odd a); reflexivity.
      * replace i with (Z.succ (i - 1)) by lia.
        replace (Z.succ (i - 1) + 1) with (Z.succ (i - 1 + 1)) by lia.
        rewrite !Z.testbit_succ_r by lia.
        rewrite <- testbit_gray by lia.
        rewrite (proj2 (IH a ltac:(subst a; apply Z.div_pos; lia)) eq_refl).
        rewrite Z.testbit_ones_nonneg by lia.
        destruct (Z.ltb_spec (i - 1) (Z.of_nat k)),
          (Z.ltb_spec (Z.succ (i - 1)) (Z.succ (Z.of_nat k)));
          (reflexivity || lia).
Qed.

(** [BitsAreInAltOrder] accepts exactly the 33 values 0, 1, 2, 5, 10, 21,
    42, ..., 0x55555555, 0xAAAAAAAA: the integer quotients of 2, 4, 8,
    ..., 2^33 by 3. *)
Theorem BitsAreInAltOrder_closed_form (n : Z) :
  in_uint n ->
  BitsAreInAltOrder n = true
  <-> exists k : Z, 0 <= k <= 32 /\ n = 2 ^ (k + 1) / 3.
Proof.
  intros Hn. unfold BitsAreInAltOrder. cbv zeta.
  rewrite Z.eqb_eq, (wrapped_test_ones _ (gray_in_uint n Hn)).
  assert (Hpos : 0 <= n) by (unfold in_uint in Hn; lia).
  split.
  - intros (k & Hk & Hones).
    rewrite <- (Z2Nat.id k Hk) in Hones.
    apply (gray_ones_closed_form _ n Hpos) in Hones.
    rewrite (Z2Nat.id k Hk) in Hones.
    exists k. split; [| exact Hones].
    split; [exact Hk |].
    destruct (Z_le_gt_dec k 32) as [| Hbig]; [assumption | exfalso].
    assert (Hpow : 2 ^ 34 <= 2 ^ (k + 1)) by (apply Z.pow_le_mono_r; lia).
    apply (Z.div_le_mono _ _ 3 ltac:(lia)) in Hpow.
    change (2 ^ 34 / 3) with 5726623061 in Hpow.
    unfold in_uint, uint_max in Hn. lia.
  - intros (k & [Hk _] & Hval).
    exists k. split; [exact Hk |].
    rewrite <- (Z2Nat.id k Hk) in Hval |- *.
    apply (gray_ones_closed_form _ n Hpos). exact Hval.
Qed.

Lemma BitsAreInAltOrder_closed_form_witness :
  in_uint 21 /\
  (BitsAreInAltOrder 21 = true
   <-> exists k : Z, 0 <= k <= 32 /\ 21 = 2 ^ (k + 1) / 3).
Proof.
  assert (Hn : in_uint 21) by (unfold in_uint, uint_max; lia).
  split; [exact Hn |].
  apply (BitsAreInAltOrder_closed_form 21 Hn).
Defined.

End AlternationValues.

(** ** GeneratePseudoRandomNumber: which seeds give the same result *)

Section XorshiftCollisions.

(** The signed statement [x ^= x >> k] cannot tell [x] from [~x]: the
    arithmetic shift of the complement is the complement of the shift. *)
Lemma xor_shr_complement (k x : Z) :
  0 <= k -> xor_shr k (Z.lnot x) = xor_shr k x.
Proof.
  intros Hk. unfold xor_shr.
  rewrite <- Z.lnot_shiftr by exact Hk. apply Z.lxor_lnot_lnot.
Qed.

Lemma lnot_in_int (x : Z) : in_int x -> in_int (Z.lnot x).
Proof.
  unfold in_int, int_min, int_max. rewrite Z.lnot_eq_pred_opp. lia.
Qed.

(** *** The statements [x ^= x << k] lose nothing *)

Lemma uxor_shl_lxor (k a b : Z) :
  uxor_shl k (Z.lxor a b) = Z.lxor (uxor_shl k a) (uxor_shl k b).
Proof.
  unfold uxor_shl. apply Z.bits_inj'. intros i _.
  rewrite Z.shiftl_lxor.
  rewrite !Z.lxor_spec, !testbit_wrap_uint, !Z.lxor_spec.
  destruct (i <? 32), (Z.testbit a i), (Z.testbit b i),
    (Z.testbit (Z.shiftl a k) i), (Z.testbit (Z.shiftl b k) i); reflexivity.
Qed.

Lemma uxor_shl_bits_below (k a b : Z) :
  0 < k -> uxor_shl k a = uxor_shl k b ->
  forall (n : nat) (i : Z),
    0 <= i < Z.of_nat n -> Z.testbit a i = Z.testbit b i.
Proof.
  intros Hk Heq. induction n as [| n IH]; intros i Hi; [lia |].
  destruct (Z_lt_le_dec i (Z.of_nat n)) as [Hlt | Hge];
    [apply IH; lia |].
  assert (Hprev : Z.testbit a (i - k) = Z.testbit b (i - k)).
  { destruct (Z_lt_le_dec (i - k) 0) as [Hneg | Hnn].
    - rewrite !Z.testbit_neg_r by exact Hneg. reflexivity.
    - apply IH. lia. }
  apply (f_equal (fun z => Z.testbit z i)) in Heq.
  unfold uxor_shl in Heq.
  rewrite !Z.lxor_spec, !testbit_wrap_uint, !Z.shiftl_spec in Heq by lia.
  rewrite Hprev in Heq.
  destruct (Z.testbit a i), (Z.testbit b i), (i <? 32),
    (Z.testbit b (i - k)); simpl in Heq; congruence.
Qed.

Lemma uxor_shl_inj (k a b : Z) :
  0 < k -> uxor_shl k a = uxor_shl k b -> a = b.
Proof.
  intros Hk Heq. apply Z.bits_inj'. intros i Hi.
  apply (uxor_shl_bits_below k a b Hk Heq (S (Z.to_nat i))). lia.
Qed.

Lemma xor_shl_inj (k x y : Z) :
  0 < k -> in_int x -> in_int y -> xor_shl k x = xor_shl k y -> x = y.
Proof.
  intros Hk Hx Hy Heq.
  apply bit_pattern_inj; [exact Hx | exact Hy |].
  apply (uxor_shl_inj k); [exact Hk |].
  rewrite <- !bit_pattern_xor_shl by lia. rewrite Heq. reflexivity.
Qed.

(** *** The statement [x ^= x >> 17] identifies [x] and [~x], nothing else *)

Lemma xor_shr_17_undo (x : Z) :
  in_int x -> 0 <= x -> xor_shr 17 (xor_shr 17 x) = x.
Proof.
  intros Hx Hpos. unfold xor_shr. apply Z.bits_inj'. intros i Hi.
  rewrite !Z.lxor_spec, !Z.shiftr_spec, !Z.lxor_spec, !Z.shiftr_spec by lia.
  rewrite (testbit_int_sign x (i + 17 + 17) Hx) by lia.
  replace (x <? 0) with false by (symmetry; apply Z.ltb_ge; exact Hpos).
  destruct (Z.testbit x i), (Z.testbit x (i + 17)); reflexivity.
Qed.

Lemma xor_shr_17_fibres (x y : Z) :
  in_int x -> in_int y ->
  xor_shr 17 y = xor_shr 17 x -> y = x \/ y = Z.lnot x.
Proof.
  intros Hx Hy Heq.
  assert (Hnorm : forall u v : Z,
             in_int u -> in_int v -> 0 <= u -> 0 <= v ->
             xor_shr 17 v = xor_shr 17 u -> v = u).
  { intros u v Hu Hv Hup Hvp H.
    rewrite <- (xor_shr_17_undo u Hu Hup), <- (xor_shr_17_undo v Hv Hvp), H.
    reflexivity. }
  destruct (Z_lt_le_dec x 0) as [Hxn | Hxp],
    (Z_lt_le_dec y 0) as [Hyn | Hyp].
  - left. rewrite <- (Z.lnot_involutive y), <- (Z.lnot_involutive x).
    f_equal. apply Hnorm.
    + apply lnot_in_int, Hx.
    + apply lnot_in_int, Hy.
    + apply Z.lnot_nonneg, Hxn.
    + apply Z.lnot_nonneg, Hyn.
    + rewrite !xor_shr_complement by lia. exact Heq.
  - right. apply Hnorm.
    + apply lnot_in_int, Hx.
    + exact Hy.
    + apply Z.lnot_nonneg, Hxn.
    + exact Hyp.
    + rewrite xor_shr_complement by lia. exact Heq.
  - right. rewrite <- (Z.lnot_involutive y). f_equal. apply Hnorm.
    + exact Hx.
    + apply lnot_in_int, Hy.
    + exact Hxp.
    + apply Z.lnot_nonneg, Hyn.
    + rewrite xor_shr_complement by lia. exact Heq.
  - left. apply Hnorm; assumption.
Qed.

(** *** Seeds with the same intermediate value, or complementary ones *)

Lemma first_step_inj (s s' : Z) :
  in_uint s -> in_uint s' ->
  xor_shl 13 (wrap_int s') = xor_shl 13 (wrap_int s) -> s' = s.
Proof.
  intros Hs Hs' Heq.
  apply (f_equal bit_pattern) in Heq.
  rewrite (first_step_pattern s Hs), (first_step_pattern s' Hs') in Heq.
  rewrite (wrap_uint_id s Hs), (wrap_uint_id s' Hs') in Heq.
  apply (uxor_shl_inj 13); [lia | exact Heq].
Qed.

Lemma partner_in_uint (s : Z) : in_uint s -> in_uint (Z.lxor s 4227866623).
Proof.
  intros Hs. apply lxor_in_uint; [exact Hs |].
  unfold in_uint, uint_max. lia.
Qed.

(** Flipping the seed bits 0..12 and 26..31 complements the value
    obtained after [x ^= x << 13]. *)
Lemma first_step_partner (s : Z) :
  in_uint s ->
  xor_shl 13 (wrap_int (Z.lxor s 4227866623))
  = Z.lnot (xor_shl 13 (wrap_int s)).
Proof.
  intros Hs.
  pose proof (partner_in_uint s Hs) as Hp.
  apply bit_pattern_inj.
  - apply xor_shl_in_int, wrap_int_in_int.
  - apply lnot_in_int, xor_shl_in_int, wrap_int_in_int.
  - rewrite (first_step_pattern _ Hp), (wrap_uint_id _ Hp), uxor_shl_lxor.
    rewrite <- Z.lxor_m1_r, bit_pattern_lxor.
    rewrite (first_step_pattern s Hs), (wrap_uint_id s Hs).
    reflexivity.
Qed.

(** Two 32-bit seeds give the same result exactly when they are equal or
    differ in bits 0..12 and 26..31 (by the mask 0xFC001FFF): every result
    comes from exactly two seeds. *)
Theorem GeneratePseudoRandomNumber_collisions (s : Z) :
  in_uint s ->
  in_uint (Z.lxor s 4227866623) /\ Z.lxor s 4227866623 <> s /\
  forall s' : Z,
    in_uint s' ->
    GeneratePseudoRandomNumber s' = GeneratePseudoRandomNumber s
    <-> s' = s \/ s' = Z.lxor s 4227866623.
Proof.
  intros Hs.
  pose proof (partner_in_uint s Hs) as Hp.
  pose proof (first_step_partner s Hs) as Hpart.
  split; [exact Hp | split].
  - intros Heq. rewrite Heq in Hpart.
    rewrite Z.lnot_eq_pred_opp in Hpart. lia.
  - intros s' Hs'. unfold GeneratePseudoRandomNumber. cbv zeta. split.
    + intros Heq.
      apply xor_shl_inj in Heq;
        [| lia
         | apply xor_shr_in_int; [lia | apply xor_shl_in_int, wrap_int_in_int]
         | apply xor_shr_in_int; [lia | apply xor_shl_in_int, wrap_int_in_int]].
      apply xor_shr_17_fibres in Heq;
        [| apply xor_shl_in_int, wrap_int_in_int
         | apply xor_shl_in_int, wrap_int_in_int].
      destruct Heq as [Hsame | Hcompl].
      * left. apply first_step_inj; assumption.
      * right. rewrite <- Hpart in Hcompl.
        apply first_step_inj; assumption.
    + intros [-> | ->]; [reflexivity |].
      rewrite Hpart, xor_shr_complement by lia. reflexivity.
Qed.

Lemma GeneratePseudoRandomNumber_collisions_witness :
  in_uint 1 /\
  in_uint (Z.lxor 1 4227866623) /\ Z.lxor 1 4227866623 <> 1 /\
  forall s' : Z,
    in_uint s' ->
    GeneratePseudoRandomNumber s' = GeneratePseudoRandomNumber 1
    <-> s' = 1 \/ s' = Z.lxor 1 4227866623.
Proof.
  assert (Hs : in_uint 1) by (unfold in_uint, uint_max; lia).
  split; [exact Hs |].
  apply (GeneratePseudoRandomNumber_collisions 1 Hs).
Defined.

End XorshiftCollisions.

(** ** IsNumberEven against the remainder test it replaces *)

Section EvenRemainder.

(** The comment above [IsNumberEven] presents the bit test as a faster
    form of the test with [%].  The operator [%] of C++ truncates towards
    zero, as [Z.rem] does, so [x % 2] is -1 on odd negative [x]; the two
    tests still agree on every [int]. *)
Theorem IsNumberEven_is_remainder_test (x : Z) :
  in_int x -> IsNumberEven x = (Z.rem x 2 =? 0).
Proof.
  intros _. unfold IsNumberEven.
  rewrite land_1_bit0, Z.bit0_mod.
  destruct (Z.eqb_spec (x mod 2) 0) as [H0 | Hne]; symmetry.
  - apply Z.eqb_eq, Z.rem_mod_eq_0; [lia | exact H0].
  - apply Z.eqb_neq. intros Hrem. apply Hne.
    apply Z.rem_mod_eq_0; [lia | exact Hrem].
Qed.

Lemma IsNumberEven_is_remainder_test_witness :
  in_int (-3) /\ IsNumberEven (-3) = (Z.rem (-3) 2 =? 0).
Proof.
  assert (Hx : in_int (-3)) by (unfold in_int, int_min, int_max; lia).
  split; [exact Hx |].
  apply (IsNumberEven_is_remainder_test (-3) Hx).
Defined.

End EvenRemainder.
